(** * total_file_size.py: the mini-batch callback of the parallel-run sample

    Source: how-to-use-azureml/machine-learning-pipelines/parallel-run/
    Code/total_file_size.py.  The module has two entry points, [init] and
    [run].  [run] receives a Python list of file paths, asks the filesystem
    for the size of each one, appends the sizes to a new list and returns it,
    printing three lines on the way.

    The embedding keeps what the Python code relies on:
    - lists are heap objects reached through references, so that the
      argument and the result of [run] can be told apart;
    - [print] and [os.path.getsize] are recorded, in order, in a log of
      events;
    - an exception raised by [os.path.getsize] ends the call.

    What lies outside the module is taken as given: [os.path.getsize] is a
    function from paths to a size or an exception, the same for the whole
    call; [print] writes its line and does not fail; [repr] of a string and
    the module's [__file__] are parameters.  The [for] loop follows Python's
    list iterator, which reads the list again at every step, so the model
    bounds the number of steps by a fuel and the theorems show that any fuel
    above the length of the mini-batch is enough. *)

From stdpp Require Import base gmap list strings pretty.

(** ** Values, exceptions, events *)

(** The exceptions [os.path.getsize] raises for a path it cannot stat.  All
    three are [OSError] in Python; the first two are its usual subclasses. *)
Inductive exn :=
  | FileNotFoundError (filename : string)
  | PermissionError (filename : string)
  | OSError (errno : Z) (filename : string).

(** Items of a Python list: the paths of a mini-batch are [str], the sizes
    are [int] (unbounded, hence [Z]). *)
Inductive value :=
  | VStr (s : string)
  | VInt (n : Z).

Abbreviation loc := positive.

(** What the outside can observe of a call, in the order it happened. *)
Inductive event :=
  | EvPrint (line : string)
  | EvGetsize (path : string) (answer : exn + Z).

Record World := mkWorld {
  heap : gmap loc (list value);
  events : list event
}.

(** ** The monad of Python computations *)

(** [Stuck] is a call outside the callback contract (a reference that is not
    a list, a list item that is not a path); [OutOfFuel] is a loop the model
    stopped following. *)
Inductive outcome (A : Type) :=
  | Return (a : A)
  | Raise (e : exn)
  | Stuck
  | OutOfFuel.
Arguments Return {A} a.
Arguments Raise {A} e.
Arguments Stuck {A}.
Arguments OutOfFuel {A}.

Definition Py (A : Type) : Type := World → outcome A * World.

#[global] Instance Py_ret : MRet Py := λ A a w, (Return a, w).

#[global] Instance Py_bind : MBind Py := λ A B f m w,
  match m w with
  | (Return a, w') => f a w'
  | (Raise e, w') => (Raise e, w')
  | (Stuck, w') => (Stuck, w')
  | (OutOfFuel, w') => (OutOfFuel, w')
  end.

#[global] Instance Py_throw : MThrow exn Py := λ A e w, (Raise e, w).

Definition stuck {A} : Py A := λ w, (Stuck, w).
Definition out_of_fuel {A} : Py A := λ w, (OutOfFuel, w).

Definition emit (e : event) : Py unit := λ w,
  (Return tt, mkWorld (heap w) (events w ++ [e])).

(** ** Built-ins used by the module *)

(** [print(line)] *)
Definition print (line : string) : Py unit := emit (EvPrint line).

(** Dereference a list object. *)
Definition items_of (l : loc) : Py (list value) := λ w,
  match heap w !! l with
  | Some items => (Return items, w)
  | None => (Stuck, w)
  end.

(** [len(l)] *)
Definition len (l : loc) : Py Z :=
  items ← items_of l; mret (Z.of_nat (length items)).

(** [[]]: a new, empty list object at an address not in use. *)
Definition new_list : Py loc := λ w,
  let l := fresh (dom (heap w)) in
  (Return l, mkWorld (<[l := []]> (heap w)) (events w)).

(** [l.append(v)] *)
Definition list_append (l : loc) (v : value) : Py unit := λ w,
  match heap w !! l with
  | Some items => (Return tt, mkWorld (<[l := items ++ [v]]> (heap w)) (events w))
  | None => (Stuck, w)
  end.

(** [next(it)] for the iterator of a list: the iterator is the list and a
    position; it reads the list as it is when asked, and stops when the
    position is past the end. *)
Definition list_iter_next (l : loc) (i : nat) : Py (option value) :=
  items ← items_of l; mret (items !! i).

(** [for x in l: acc = body(x, acc)], following the list iterator for at
    most [fuel] calls of [next]. *)
Fixpoint for_in {A} (fuel : nat) (l : loc) (i : nat)
    (body : value → A → Py A) (acc : A) : Py A :=
  match fuel with
  | O => out_of_fuel
  | S fuel' =>
      nxt ← list_iter_next l i;
      match nxt with
      | None => mret acc
      | Some x => acc' ← body x acc; for_in fuel' l (S i) body acc'
      end
  end.

(** [', '.join(parts)] *)
Fixpoint join_comma (parts : list string) : string :=
  match parts with
  | [] => ""
  | [p] => p
  | p :: rest => p +:+ ", " +:+ join_comma rest
  end.

Section Module_total_file_size.

(** [os.path.getsize] on the worker's filesystem: the size in bytes, or
    the exception raised. *)
Variable getsize : string → exn + Z.

(** The module's [__file__]. *)
Variable __file__ : string.

(** [repr] of a [str]. *)
Variable repr_str : string → string.

Definition repr (v : value) : string :=
  match v with
  | VStr s => repr_str s
  | VInt n => pretty n
  end.

(** [f'{l}'] for a list. *)
Definition format_list (l : loc) : Py string :=
  items ← items_of l; mret ("[" +:+ join_comma (repr <$> items) +:+ "]").

(** [os.path.getsize(file_path)] *)
Definition os_path_getsize (file_path : value) : Py Z :=
  match file_path with
  | VStr path =>
      emit (EvGetsize path (getsize path));;
      match getsize path with
      | inr size => mret size
      | inl e => mthrow e
      end
  | VInt _ => stuck
  end.

(** [def init(): print("Init")] *)
Definition init : Py unit :=
  print "Init".

(** [def run(mini_batch): ...] *)
Definition run (fuel : nat) (mini_batch : loc) : Py loc :=
  shown ← format_list mini_batch;
  print ("run method start: " +:+ __file__ +:+ ", run(" +:+ shown +:+ ")");;
  count ← len mini_batch;
  print ("total_file_count = " +:+ pretty count);;
  file_size_list ← new_list;
  let total_file_size := 0%Z in
  total_file_size ←
    for_in fuel mini_batch 0 (λ file_path total_file_size,
      file_size ← os_path_getsize file_path;
      list_append file_size_list (VInt file_size);;
      let total_file_size := (total_file_size + file_size)%Z in
      mret total_file_size) total_file_size;
  print ("total_file_size = " +:+ pretty total_file_size);;
  mret file_size_list.

End Module_total_file_size.

(** ** A concrete filesystem, for running the model *)

Inductive inode :=
  | RegularFile (content : list Byte.byte)
  | NoAccess.

Definition getsize_in (fs : gmap string inode) (path : string) : exn + Z :=
  match fs !! path with
  | Some (RegularFile content) => inr (Z.of_nat (length content))
  | Some NoAccess => inl (PermissionError path)
  | None => inl (FileNotFoundError path)
  end.

Definition demo_fs : gmap string inode :=
  {[ "a.txt" := RegularFile (replicate 5 Byte.x61);
     "b.txt" := RegularFile (replicate 10 Byte.x62);
     "locked" := NoAccess ]}.

Definition demo_repr (s : string) : string := "'" +:+ s +:+ "'".

Definition demo_world (paths : list string) : World :=
  mkWorld {[ 7%positive := VStr <$> paths ]} [].

Definition demo_run (paths : list string) : outcome loc * World :=
  run (getsize_in demo_fs) "total_file_size.py" demo_repr
      (S (length paths)) 7%positive (demo_world paths).


(** ** What the loop of [run] computes, as functions of the paths *)

Section Loop_spec.

Variable getsize : string → exn + Z.

Definition accessible (path : string) : bool :=
  match getsize path with inr _ => true | inl _ => false end.

Definition getsize_event (path : string) : event :=
  EvGetsize path (getsize path).

(** Sizes of the paths before the first one that cannot be stat-ed. *)
Fixpoint sizes_of (paths : list string) : list Z :=
  match paths with
  | [] => []
  | p :: rest =>
      match getsize p with
      | inr n => n :: sizes_of rest
      | inl _ => []
      end
  end.

(** The exception of the first path that cannot be stat-ed. *)
Fixpoint first_error (paths : list string) : option exn :=
  match paths with
  | [] => None
  | p :: rest =>
      match getsize p with
      | inr _ => first_error rest
      | inl e => Some e
      end
  end.

(** The paths that are looked up: all of them up to and including the
    first one that cannot be stat-ed. *)
Fixpoint attempted (paths : list string) : list string :=
  match paths with
  | [] => []
  | p :: rest =>
      p :: match getsize p with
           | inr _ => attempted rest
           | inl _ => []
           end
  end.

End Loop_spec.

Definition total (sizes : list Z) : Z := foldr Z.add 0%Z sizes.

(** The three lines [run] prints. *)
Definition line_start (__file__ : string) (repr_str : string → string)
    (paths : list string) : string :=
  "run method start: " +:+ __file__ +:+ ", run(" +:+
  ("[" +:+ join_comma (repr repr_str <$> (VStr <$> paths)) +:+ "]") +:+ ")".

Definition line_count (paths : list string) : string :=
  "total_file_count = " +:+ pretty (Z.of_nat (length paths)).

Definition line_total (sizes : list Z) : string :=
  "total_file_size = " +:+ pretty (total sizes).

(** The caller's view of a finished call: the list behind the returned
    reference, or the way the call ended. *)
Definition result_of (ow : outcome loc * World) : outcome (list value) :=
  match ow.1 with
  | Return r =>
      match heap ow.2 !! r with
      | Some items => Return items
      | None => Stuck
      end
  | Raise e => Raise e
  | Stuck => Stuck
  | OutOfFuel => OutOfFuel
  end.

(** A computation that leaves every list outside [footprint] as it was. *)
Definition only_writes {A} (footprint : gset loc) (m : Py A) : Prop :=
  ∀ w o w', m w = (o, w') →
    ∀ l, l ∉ footprint → heap w' !! l = heap w !! l.

(** The orchestrator calling an entry point [n] times in a row. *)
Fixpoint call_times (n : nat) (entry : Py unit) : Py unit :=
  match n with
  | O => mret tt
  | S n' => entry;; call_times n' entry
  end.

(** The paths [os.path.getsize] was asked about, in the order of the
    events. *)
Fixpoint lookups (evs : list event) : list string :=
  match evs with
  | [] => []
  | EvGetsize path _ :: rest => path :: lookups rest
  | EvPrint _ :: rest => lookups rest
  end.

(** The demo filesystem once access to ["locked"] has been granted. *)
Definition demo_fs_unlocked : gmap string inode :=
  <["locked" := RegularFile (replicate 3 Byte.x63)]> demo_fs.

(** ** Equations of the monad and of the built-ins *)

Section Py_equations.

Context {A B : Type}.
Implicit Types (m : Py A) (f : A → Py B) (w : World).

Lemma bind_Return m f w a w' :
  m w = (Return a, w') → (m ≫= f) w = f a w'.
Proof. intros H. unfold mbind, Py_bind. by rewrite H. Qed.

Lemma bind_Raise m f w e w' :
  m w = (Raise e, w') → (m ≫= f) w = (Raise e, w').
Proof. intros H. unfold mbind, Py_bind. by rewrite H. Qed.

Lemma bind_Stuck m f w w' :
  m w = (Stuck, w') → (m ≫= f) w = (Stuck, w').
Proof. intros H. unfold mbind, Py_bind. by rewrite H. Qed.

Lemma bind_OutOfFuel m f w w' :
  m w = (OutOfFuel, w') → (m ≫= f) w = (OutOfFuel, w').
Proof. intros H. unfold mbind, Py_bind. by rewrite H. Qed.

End Py_equations.

Lemma ret_eq {A} (a : A) w : mret (M := Py) a w = (Return a, w).
Proof. reflexivity. Qed.

Lemma throw_eq {A} (e : exn) w : mthrow (M := Py) (A := A) e w = (Raise e, w).
Proof. reflexivity. Qed.

Lemma emit_eq e w :
  emit e w = (Return tt, mkWorld (heap w) (events w ++ [e])).
Proof. reflexivity. Qed.

Lemma print_eq line w :
  print line w = (Return tt, mkWorld (heap w) (events w ++ [EvPrint line])).
Proof. reflexivity. Qed.

Lemma items_of_Some l items w :
  heap w !! l = Some items → items_of l w = (Return items, w).
Proof. intros H. unfold items_of. by rewrite H. Qed.

Lemma items_of_None l w :
  heap w !! l = None → items_of l w = (Stuck, w).
Proof. intros H. unfold items_of. by rewrite H. Qed.

Lemma len_Some l items w :
  heap w !! l = Some items → len l w = (Return (Z.of_nat (length items)), w).
Proof. intros H. unfold len. by rewrite (bind_Return _ _ _ _ _ (items_of_Some _ _ _ H)). Qed.

Lemma list_iter_next_Some l i items w :
  heap w !! l = Some items → list_iter_next l i w = (Return (items !! i), w).
Proof.
  intros H. unfold list_iter_next.
  by rewrite (bind_Return _ _ _ _ _ (items_of_Some _ _ _ H)).
Qed.

Lemma list_append_Some l v items w :
  heap w !! l = Some items →
  list_append l v w
  = (Return tt, mkWorld (<[l := items ++ [v]]> (heap w)) (events w)).
Proof. intros H. unfold list_append. by rewrite H. Qed.

Lemma new_list_eq w :
  new_list w
  = (Return (fresh (dom (heap w))),
     mkWorld (<[fresh (dom (heap w)) := []]> (heap w)) (events w)).
Proof. reflexivity. Qed.

Lemma for_in_O {A} l i (body : value → A → Py A) acc w :
  for_in 0 l i body acc w = (OutOfFuel, w).
Proof. reflexivity. Qed.

Lemma for_in_S {A} fuel l i (body : value → A → Py A) acc :
  for_in (S fuel) l i body acc
  = (nxt ← list_iter_next l i;
     match nxt with
     | None => mret acc
     | Some x => acc' ← body x acc; for_in fuel l (S i) body acc'
     end).
Proof. reflexivity. Qed.

Section Run_equations.

Variable getsize : string → exn + Z.

Lemma os_path_getsize_inr path size w :
  getsize path = inr size →
  os_path_getsize getsize (VStr path) w
  = (Return size, mkWorld (heap w) (events w ++ [getsize_event getsize path])).
Proof.
  intros H. unfold os_path_getsize, getsize_event.
  rewrite (bind_Return _ _ _ _ _ (emit_eq _ _)). by rewrite H.
Qed.

Lemma os_path_getsize_inl path e w :
  getsize path = inl e →
  os_path_getsize getsize (VStr path) w
  = (Raise e, mkWorld (heap w) (events w ++ [getsize_event getsize path])).
Proof.
  intros H. unfold os_path_getsize, getsize_event.
  rewrite (bind_Return _ _ _ _ _ (emit_eq _ _)). by rewrite H.
Qed.

Variable mb fsl : loc.
Variable paths : list string.

Lemma for_in_run rest : ∀ pre fuel acc done w,
  paths = pre ++ rest →
  heap w !! mb = Some (VStr <$> paths) →
  heap w !! fsl = Some done →
  fsl ≠ mb →
  length rest < fuel →
  for_in fuel mb (length pre) (λ file_path total_file_size,
      file_size ← os_path_getsize getsize file_path;
      list_append fsl (VInt file_size);;
      let total_file_size := (total_file_size + file_size)%Z in
      mret total_file_size) acc w
  = (match first_error getsize rest with
     | None => Return (acc + total (sizes_of getsize rest))%Z
     | Some e => Raise e
     end,
     mkWorld (<[fsl := done ++ (VInt <$> sizes_of getsize rest)]> (heap w))
             (events w ++ (getsize_event getsize <$> attempted getsize rest))).
Proof.
  induction rest as [|p rest' IH]; intros pre fuel acc done w Hp Hmb Hfsl Hne Hfuel;
    (destruct fuel as [|fuel]; [simpl in Hfuel; lia|]); rewrite for_in_S;
    rewrite (bind_Return _ _ _ _ _ (list_iter_next_Some _ _ _ _ Hmb)).
  - rewrite Hp, app_nil_r, list_lookup_fmap, lookup_ge_None_2 by lia.
    cbn. rewrite !app_nil_r, Z.add_0_r, insert_id by done. by destruct w.
  - rewrite Hp, list_lookup_fmap, list_lookup_middle by done. cbn [fmap option_fmap option_map].
    cbn [first_error sizes_of attempted].
    destruct (getsize p) as [e|n] eqn:Hg.
    + rewrite (bind_Raise _ _ _ _ _ (bind_Raise _ _ _ _ _ (os_path_getsize_inl _ _ _ Hg))).
      cbn. rewrite app_nil_r, insert_id by done. done.
    + assert (Hbody : (file_size ← os_path_getsize getsize (VStr p);
                       list_append fsl (VInt file_size);;
                       mret (acc + file_size)%Z) w
                      = (Return (acc + n)%Z,
                         mkWorld (<[fsl := done ++ [VInt n]]> (heap w))
                                 (events w ++ [getsize_event getsize p]))).
      { rewrite (bind_Return _ _ _ _ _ (os_path_getsize_inr _ _ _ Hg)). cbv beta.
        by erewrite bind_Return by (apply list_append_Some; exact Hfsl). }
      rewrite (bind_Return _ _ _ _ _ Hbody). cbv beta.
      replace (S (length pre)) with (length (pre ++ [p])) by (rewrite length_app; simpl; lia).
      rewrite (IH (pre ++ [p]) fuel _ (done ++ [VInt n])); cbn.
      * rewrite insert_insert_eq, <- !app_assoc. cbn.
        destruct (first_error getsize rest'); [done|].
        by rewrite Z.add_assoc.
      * by rewrite <- app_assoc.
      * by rewrite lookup_insert_ne.
      * by rewrite lookup_insert_eq.
      * done.
      * simpl in Hfuel. lia.
Qed.
End Run_equations.

(** ** The whole of [run], for a mini-batch of paths *)

Section Run_spec.

Variable getsize : string → exn + Z.
Variable __file__ : string.
Variable repr_str : string → string.

Lemma format_list_Some l items w :
  heap w !! l = Some items →
  format_list repr_str l w
  = (Return ("[" +:+ join_comma (repr repr_str <$> items) +:+ "]"), w).
Proof.
  intros H. unfold format_list.
  by erewrite bind_Return by (by apply items_of_Some).
Qed.

Lemma run_spec fuel mini_batch paths w :
  heap w !! mini_batch = Some (VStr <$> paths) →
  length paths < fuel →
  run getsize __file__ repr_str fuel mini_batch w
  = let r := fresh (dom (heap w)) in
    let sizes := sizes_of getsize paths in
    (match first_error getsize paths with
     | None => Return r
     | Some e => Raise e
     end,
     mkWorld (<[r := VInt <$> sizes]> (heap w))
       (events w
        ++ [EvPrint (line_start __file__ repr_str paths);
            EvPrint (line_count paths)]
        ++ (getsize_event getsize <$> attempted getsize paths)
        ++ match first_error getsize paths with
           | None => [EvPrint (line_total sizes)]
           | Some _ => []
           end)).
Proof.
  intros Hmb Hfuel. unfold run.
  erewrite bind_Return by (by apply format_list_Some). cbv beta.
  erewrite bind_Return by apply print_eq. cbv beta.
  erewrite bind_Return by (by apply len_Some). cbv beta.
  erewrite bind_Return by apply print_eq. cbv beta.
  erewrite bind_Return by apply new_list_eq. cbv beta zeta. cbn [heap events].
  set (r := fresh (dom (heap w))).
  assert (Hr : r ≠ mini_batch).
  { intros Heq. apply (is_fresh (dom (heap w))). fold r. rewrite Heq.
    apply elem_of_dom. by eexists. }
  match goal with |- (for_in _ _ _ ?body _ ≫= _) ?w1 = _ =>
    pose proof (for_in_run getsize mini_batch r paths paths [] fuel 0%Z [] w1
                  eq_refl) as Hloop
  end.
  cbn [heap events length] in Hloop.
  rewrite lookup_insert_ne, lookup_insert_eq in Hloop by done.
  specialize (Hloop Hmb eq_refl Hr Hfuel).
  rewrite insert_insert_eq in Hloop. cbn [app] in Hloop.
  destruct (first_error getsize paths) as [e|].
  - rewrite (bind_Raise _ _ _ _ _ Hloop). rewrite length_fmap.
    by rewrite app_nil_r, <- !app_assoc.
  - rewrite (bind_Return _ _ _ _ _ Hloop). cbv beta.
    erewrite bind_Return by apply print_eq. cbv beta.
    rewrite ret_eq. cbn [heap events]. rewrite length_fmap.
    by rewrite <- !app_assoc.
Qed.
End Run_spec.

(** ** The pure functions of the loop *)

Section Loop_facts.

Variable getsize : string → exn + Z.

Lemma accessible_true p : accessible getsize p = true ↔ ∃ n, getsize p = inr n.
Proof.
  unfold accessible. destruct (getsize p) as [e|n]; split; eauto; try done.
  by intros [? ?].
Qed.

Lemma accessible_false p : accessible getsize p = false ↔ ∃ e, getsize p = inl e.
Proof.
  unfold accessible. destruct (getsize p) as [e|n]; split; eauto; try done.
  by intros [? ?].
Qed.

Lemma first_error_None paths :
  first_error getsize paths = None ↔ Forall (λ p, accessible getsize p = true) paths.
Proof.
  induction paths as [|p rest IH]; simpl; [by split; auto|].
  rewrite Forall_cons. unfold accessible at 1.
  destruct (getsize p); [|tauto]. split; [done|]. by intros [? _].
Qed.

Lemma all_accessible paths :
  Forall (λ p, accessible getsize p = true) paths →
  attempted getsize paths = paths ∧ Forall2 (λ p n, getsize p = inr n) paths (sizes_of getsize paths).
Proof.
  induction 1 as [|p rest Hp _ [IH1 IH2]]; simpl; [by auto|].
  apply accessible_true in Hp as [n Hn]. rewrite Hn, IH1. by auto.
Qed.

Lemma first_error_Some paths e :
  first_error getsize paths = Some e →
  ∃ pre p post,
    paths = pre ++ p :: post ∧ Forall (λ p, accessible getsize p = true) pre ∧ getsize p = inl e ∧
    attempted getsize paths = pre ++ [p] ∧
    sizes_of getsize paths = sizes_of getsize pre.
Proof.
  induction paths as [|q rest IH]; simpl; [done|].
  destruct (getsize q) as [e'|n] eqn:Hq.
  - intros [= ->]. by exists [], q, rest.
  - intros (pre & p & post & -> & Hok & Hp & Hatt & Hsz)%IH.
    exists (q :: pre), p, post. simpl. rewrite Hq, Hatt, Hsz.
    repeat split; try done. constructor; [|done].
    apply accessible_true. eauto.
Qed.

Lemma first_error_is_Some paths :
  is_Some (first_error getsize paths) ↔ Exists (λ p, accessible getsize p = false) paths.
Proof.
  induction paths as [|p rest IH]; simpl.
  - split; [by intros [? ?] | by intros ?%Exists_nil].
  - rewrite Exists_cons, <- IH. unfold accessible.
    destruct (getsize p); [|split; [by right | by intros [?|?]]].
    split; [by left | by eauto].
Qed.

Lemma sizes_of_nonneg paths :
  (∀ p n, getsize p = inr n → (0 ≤ n)%Z) →
  Forall (λ n, (0 ≤ n)%Z) (sizes_of getsize paths).
Proof.
  intros Hpos. induction paths as [|p rest IH]; simpl; [done|].
  destruct (getsize p) eqn:Hp; eauto.
Qed.

End Loop_facts.

Lemma total_nonneg sizes : Forall (λ n, (0 ≤ n)%Z) sizes → (0 ≤ total sizes)%Z.
Proof. induction 1; simpl; lia. Qed.

Lemma sizes_of_ext getsize1 getsize2 paths :
  (∀ p, p ∈ paths → getsize1 p = getsize2 p) →
  sizes_of getsize1 paths = sizes_of getsize2 paths ∧
  first_error getsize1 paths = first_error getsize2 paths.
Proof.
  induction paths as [|p rest IH]; intros Hagree; simpl; [done|].
  rewrite <- (Hagree p) by apply list_elem_of_here.
  destruct IH as [-> ->]; [|by destruct (getsize1 p)].
  intros q Hq. apply Hagree. by apply list_elem_of_further.
Qed.

(** ** Fuel: a settled outcome does not depend on it *)

Lemma bind_inv {A B} (m : Py A) (f : A → Py B) w o w' :
  (m ≫= f) w = (o, w') →
  (∃ a w1, m w = (Return a, w1) ∧ f a w1 = (o, w')) ∨
  (∃ o1, m w = (o1, w') ∧ (∀ a, o1 ≠ Return a) ∧ (∀ b, o ≠ Return b)).
Proof.
  unfold mbind, Py_bind. destruct (m w) as [[a|e| |] w1]; intros H.
  - left. by exists a, w1.
  - right. exists (Raise e). by injection H as <- <-.
  - right. exists Stuck. by injection H as <- <-.
  - right. exists OutOfFuel. by injection H as <- <-.
Qed.

Lemma bind_Return_inv {A B} (m : Py A) (f : A → Py B) w b w' :
  (m ≫= f) w = (Return b, w') →
  ∃ a w1, m w = (Return a, w1) ∧ f a w1 = (Return b, w').
Proof.
  intros [?|(o1 & _ & _ & Hb)]%bind_inv; [done|]. by destruct (Hb b).
Qed.

Lemma bind_mono_r {A B} (m : Py A) (f g : A → Py B) w o w' :
  (∀ a w1, f a w1 = (o, w') → g a w1 = (o, w')) →
  (m ≫= f) w = (o, w') → (m ≫= g) w = (o, w').
Proof. unfold mbind, Py_bind. destruct (m w) as [[a|e| |] w1]; auto. Qed.

Lemma bind_mono_l {A B} (m m' : Py A) (f : A → Py B) w o w' :
  (∀ o1 w1, m w = (o1, w1) → o1 ≠ OutOfFuel → m' w = (o1, w1)) →
  o ≠ OutOfFuel →
  (m ≫= f) w = (o, w') → (m' ≫= f) w = (o, w').
Proof.
  intros Hm Ho. unfold mbind, Py_bind.
  destruct (m w) as [[a|e| |] w1] eqn:Hmw.
  - by rewrite (Hm _ _ eq_refl).
  - by rewrite (Hm _ _ eq_refl).
  - by rewrite (Hm _ _ eq_refl).
  - intros [= <- <-]. done.
Qed.

Lemma for_in_fuel_mono {A} (body : value → A → Py A) l fuel :
  ∀ fuel' i acc w o w',
    fuel ≤ fuel' → o ≠ OutOfFuel →
    for_in fuel l i body acc w = (o, w') →
    for_in fuel' l i body acc w = (o, w').
Proof.
  induction fuel as [|fuel IH]; intros fuel' i acc w o w' Hle Ho.
  - rewrite for_in_O. by intros [= <- <-].
  - destruct fuel' as [|fuel']; [lia|]. rewrite !for_in_S.
    apply bind_mono_r. intros [x|] w1; [|done].
    apply bind_mono_r. intros acc' w2. apply IH; [lia | done].
Qed.

Lemma run_fuel_mono getsize __file__ repr_str fuel fuel' mini_batch w o w' :
  fuel ≤ fuel' → o ≠ OutOfFuel →
  run getsize __file__ repr_str fuel mini_batch w = (o, w') →
  run getsize __file__ repr_str fuel' mini_batch w = (o, w').
Proof.
  intros Hle Ho. unfold run.
  do 5 (apply bind_mono_r; intros ? ?).
  apply bind_mono_l; [|done]. intros o_loop w_loop H1 Ho1.
  by apply (for_in_fuel_mono _ _ fuel).
Qed.

(** ** The footprint of [run] on the heap *)

Section Footprint.

Context {A B : Type}.
Implicit Types (S : gset loc).

Lemma only_writes_bind S (m : Py A) (f : A → Py B) :
  only_writes S m → (∀ a, only_writes S (f a)) → only_writes S (m ≫= f).
Proof.
  intros Hm Hf w o w' [(a & w1 & H1 & H2)|(o1 & H1 & _ & _)]%bind_inv l Hl.
  - rewrite (Hf _ _ _ _ H2 _ Hl). by apply (Hm _ _ _ H1).
  - by apply (Hm _ _ _ H1).
Qed.

Lemma only_writes_ret S (a : A) : only_writes S (mret a).
Proof. by intros w o w' [= <- <-]. Qed.

Lemma only_writes_throw S (e : exn) : only_writes S (mthrow (A := A) e).
Proof. by intros w o w' [= <- <-]. Qed.

Lemma only_writes_stuck S : only_writes S (stuck (A := A)).
Proof. by intros w o w' [= <- <-]. Qed.

End Footprint.

Lemma only_writes_emit S e : only_writes S (emit e).
Proof. by intros w o w' [= <- <-]. Qed.

Lemma only_writes_print S line : only_writes S (print line).
Proof. apply only_writes_emit. Qed.

Lemma only_writes_items_of S l : only_writes S (items_of l).
Proof.
  intros w o w'. unfold items_of.
  by destruct (heap w !! l); intros [= <- <-].
Qed.

Lemma only_writes_len S l : only_writes S (len l).
Proof.
  apply only_writes_bind; [apply only_writes_items_of|].
  intros; apply only_writes_ret.
Qed.

Lemma only_writes_format_list S repr_str l :
  only_writes S (format_list repr_str l).
Proof.
  apply only_writes_bind; [apply only_writes_items_of|].
  intros; apply only_writes_ret.
Qed.

Lemma only_writes_list_iter_next S l i : only_writes S (list_iter_next l i).
Proof.
  apply only_writes_bind; [apply only_writes_items_of|].
  intros; apply only_writes_ret.
Qed.

Lemma only_writes_os_path_getsize S getsize v :
  only_writes S (os_path_getsize getsize v).
Proof.
  destruct v as [path|n]; simpl; [|apply only_writes_stuck].
  apply only_writes_bind; [apply only_writes_emit|]. intros _.
  destruct (getsize path); [apply only_writes_throw | apply only_writes_ret].
Qed.

Lemma only_writes_list_append l v : only_writes {[l]} (list_append l v).
Proof.
  intros w o w'. unfold list_append.
  destruct (heap w !! l); intros [= <- <-] l' Hl'; [|done].
  simpl. apply lookup_insert_ne. set_solver.
Qed.

Lemma only_writes_for_in {A} S (body : value → A → Py A) l fuel :
  (∀ x acc, only_writes S (body x acc)) →
  ∀ i acc, only_writes S (for_in fuel l i body acc).
Proof.
  intros Hbody. induction fuel as [|fuel IH]; intros i acc.
  - by intros w o w' [= <- <-].
  - rewrite for_in_S. apply only_writes_bind; [apply only_writes_list_iter_next|].
    intros [x|]; [|apply only_writes_ret].
    apply only_writes_bind; [apply Hbody | intros; apply IH].
Qed.

Lemma bind_heap_inv {A B} (m : Py A) (f : A → Py B) w o w' :
  only_writes ∅ m →
  (m ≫= f) w = (o, w') →
  heap w' = heap w ∨ ∃ a w1, heap w1 = heap w ∧ f a w1 = (o, w').
Proof.
  intros Hm [(a & w1 & H1 & H2)|(o1 & H1 & _ & _)]%bind_inv.
  - right. exists a, w1. split; [|done].
    apply map_eq. intros l. by apply (Hm _ _ _ H1).
  - left. apply map_eq. intros l. by apply (Hm _ _ _ H1).
Qed.

Lemma run_footprint getsize __file__ repr_str fuel mini_batch w o w' :
  run getsize __file__ repr_str fuel mini_batch w = (o, w') →
  ∀ l, l ≠ fresh (dom (heap w)) → heap w' !! l = heap w !! l.
Proof.
  unfold run. intros H l Hl.
  apply bind_heap_inv in H as [->|(shown & w1 & Hw1 & H)];
    [done | | apply only_writes_format_list].
  apply bind_heap_inv in H as [->|(_ & w2 & Hw2 & H)];
    [congruence | | apply only_writes_print].
  apply bind_heap_inv in H as [->|(count & w3 & Hw3 & H)];
    [congruence | | apply only_writes_len].
  apply bind_heap_inv in H as [->|(_ & w4 & Hw4 & H)];
    [congruence | | apply only_writes_print].
  assert (Hw : heap w4 = heap w) by congruence.
  rewrite (bind_Return _ _ _ _ _ (new_list_eq w4)), Hw in H. cbv beta zeta in H.
  set (r := fresh (dom (heap w))) in *.
  eapply (only_writes_bind {[r]}) in H.
  - rewrite H by set_solver. simpl. by rewrite lookup_insert_ne.
  - apply only_writes_for_in. intros x acc.
    apply only_writes_bind; [apply only_writes_os_path_getsize|]. intros file_size.
    apply only_writes_bind; [apply only_writes_list_append|]. intros _.
    apply only_writes_ret.
  - intros total_file_size.
    apply only_writes_bind; [apply only_writes_print|]. intros _.
    apply only_writes_ret.
Qed.

Lemma bind_heap_Return_inv {A B} (m : Py A) (f : A → Py B) w b w' :
  only_writes ∅ m →
  (m ≫= f) w = (Return b, w') →
  ∃ a w1, heap w1 = heap w ∧ m w = (Return a, w1) ∧ f a w1 = (Return b, w').
Proof.
  intros Hm (a & w1 & H1 & H2)%bind_Return_inv. exists a, w1.
  split; [|done]. apply map_eq. intros l. by apply (Hm _ _ _ H1).
Qed.

Lemma run_dangling getsize __file__ repr_str fuel mini_batch w :
  heap w !! mini_batch = None →
  run getsize __file__ repr_str fuel mini_batch w = (Stuck, w).
Proof.
  intros H. unfold run, format_list.
  apply bind_Stuck, bind_Stuck. by apply items_of_None.
Qed.

Lemma run_Return_fresh getsize __file__ repr_str fuel mini_batch w r w' :
  run getsize __file__ repr_str fuel mini_batch w = (Return r, w') →
  r = fresh (dom (heap w)) ∧ is_Some (heap w !! mini_batch).
Proof.
  intros H. split.
  - unfold run in H.
    apply bind_heap_Return_inv in H as (shown & w1 & Hw1 & _ & H);
      [|apply only_writes_format_list].
    apply bind_heap_Return_inv in H as (_ & w2 & Hw2 & _ & H);
      [|apply only_writes_print].
    apply bind_heap_Return_inv in H as (count & w3 & Hw3 & _ & H);
      [|apply only_writes_len].
    apply bind_heap_Return_inv in H as (_ & w4 & Hw4 & _ & H);
      [|apply only_writes_print].
    rewrite (bind_Return _ _ _ _ _ (new_list_eq w4)) in H. cbv beta zeta in H.
    apply bind_Return_inv in H as (t & w5 & _ & H).
    apply bind_Return_inv in H as (_ & w6 & _ & H).
    injection H as <- _. congruence.
  - destruct (heap w !! mini_batch) eqn:Hmb; [by eexists|].
    by rewrite run_dangling in H.
Qed.

(** A settled outcome of [run] on a list of paths is the one [run_spec]
    gives, whatever the fuel was. *)
Lemma run_spec_settled getsize __file__ repr_str fuel mini_batch paths w o w' :
  heap w !! mini_batch = Some (VStr <$> paths) →
  run getsize __file__ repr_str fuel mini_batch w = (o, w') →
  o ≠ OutOfFuel →
  run getsize __file__ repr_str (S (length paths)) mini_batch w = (o, w').
Proof.
  intros Hmb Hrun Ho.
  apply (run_fuel_mono _ _ _ _ (fuel `max` S (length paths))) in Hrun; [|lia|done].
  rewrite run_spec with (paths := paths) in Hrun by (done || lia).
  rewrite run_spec with (paths := paths) by (done || lia). done.
Qed.

Lemma run_Return_inv getsize __file__ repr_str fuel mini_batch paths w r w' :
  heap w !! mini_batch = Some (VStr <$> paths) →
  run getsize __file__ repr_str fuel mini_batch w = (Return r, w') →
  Forall (λ p, accessible getsize p = true) paths ∧
  heap w' !! r = Some (VInt <$> sizes_of getsize paths) ∧
  events w'
  = events w
    ++ [EvPrint (line_start __file__ repr_str paths);
        EvPrint (line_count paths)]
    ++ (getsize_event getsize <$> paths)
    ++ [EvPrint (line_total (sizes_of getsize paths))].
Proof.
  intros Hmb Hrun.
  apply run_spec_settled with (paths := paths) in Hrun; [|done..].
  rewrite run_spec with (paths := paths) in Hrun by (done || lia).
  cbv zeta in Hrun.
  destruct (first_error getsize paths) eqn:Herr; [done|].
  apply first_error_None in Herr.
  destruct (all_accessible _ _ Herr) as [Hall _].
  injection Hrun as <- <-. cbn [heap events].
  by rewrite lookup_insert_eq, Hall.
Qed.

Lemma run_Raise_inv getsize __file__ repr_str fuel mini_batch paths w e w' :
  heap w !! mini_batch = Some (VStr <$> paths) →
  run getsize __file__ repr_str fuel mini_batch w = (Raise e, w') →
  first_error getsize paths = Some e ∧
  events w'
  = events w
    ++ [EvPrint (line_start __file__ repr_str paths);
        EvPrint (line_count paths)]
    ++ (getsize_event getsize <$> attempted getsize paths).
Proof.
  intros Hmb Hrun.
  apply run_spec_settled with (paths := paths) in Hrun; [|done..].
  rewrite run_spec with (paths := paths) in Hrun by (done || lia).
  cbv zeta in Hrun.
  destruct (first_error getsize paths) eqn:Herr; [|done].
  injection Hrun as <- <-. cbn [events]. by rewrite app_nil_r.
Qed.

(** ** Properties of the callback contract *)

(** C1.  For a mini-batch whose paths can all be stat-ed, [run] returns a
    list with one integer per path, in the order of the paths: the item at
    position [i] is the size [os.path.getsize] reports for the path at
    position [i]. *)
Theorem run_returns_file_sizes getsize __file__ repr_str fuel mini_batch
    (paths : list string) w :
  heap w !! mini_batch = Some (VStr <$> paths) →
  length paths < fuel →
  Forall (λ p, accessible getsize p = true) paths →
  ∃ r (sizes : list Z) w',
    run getsize __file__ repr_str fuel mini_batch w = (Return r, w') ∧
    heap w' !! r = Some (VInt <$> sizes) ∧
    length sizes = length paths ∧
    ∀ i p, paths !! i = Some p →
      ∃ n, sizes !! i = Some n ∧ getsize p = inr n.
Proof.
  intros Hmb Hfuel Hok.
  pose proof (run_spec getsize __file__ repr_str _ _ _ _ Hmb Hfuel) as Hrun.
  cbv zeta in Hrun.
  rewrite (proj2 (first_error_None _ _) Hok) in Hrun.
  destruct (all_accessible _ _ Hok) as [_ Hsizes].
  eexists _, (sizes_of getsize paths), _. split; [exact Hrun|].
  cbn [heap]. rewrite lookup_insert_eq. split; [done|].
  split; [symmetry; by eapply Forall2_length|].
  intros i p Hi.
  destruct (Forall2_lookup_l _ _ _ _ _ Hsizes Hi) as (n & Hn & Hp). eauto.
Qed.

Lemma run_returns_file_sizes_witness :
  ∃ r (sizes : list Z) w',
    demo_run ["b.txt"; "a.txt"; "b.txt"] = (Return r, w') ∧
    heap w' !! r = Some (VInt <$> sizes) ∧
    length sizes = 3 ∧
    ∀ i p, ["b.txt"; "a.txt"; "b.txt"] !! i = Some p →
      ∃ n, sizes !! i = Some n ∧ getsize_in demo_fs p = inr n.
Proof.
  apply (run_returns_file_sizes (getsize_in demo_fs) "total_file_size.py"
           demo_repr 4 7%positive ["b.txt"; "a.txt"; "b.txt"]
           (demo_world ["b.txt"; "a.txt"; "b.txt"])).
  - reflexivity.
  - simpl. lia.
  - repeat constructor.
Defined.

(** C2.  [run] raises exactly when some path of the mini-batch cannot be
    stat-ed, and returns exactly when all of them can.  The exception is the
    one [os.path.getsize] raised for a path of the mini-batch; it ends the
    call, so the caller gets no list. *)
Theorem run_raises_iff_inaccessible getsize __file__ repr_str fuel mini_batch
    (paths : list string) w :
  heap w !! mini_batch = Some (VStr <$> paths) →
  length paths < fuel →
  let ow := run getsize __file__ repr_str fuel mini_batch w in
  (Exists (λ p, accessible getsize p = false) paths ↔ ∃ e, ow.1 = Raise e) ∧
  (Forall (λ p, accessible getsize p = true) paths ↔ ∃ r, ow.1 = Return r) ∧
  (∀ e, ow.1 = Raise e →
     result_of ow = Raise e ∧ ∃ p, p ∈ paths ∧ getsize p = inl e).
Proof.
  intros Hmb Hfuel ow. subst ow.
  rewrite (run_spec getsize __file__ repr_str _ _ _ _ Hmb Hfuel). cbv zeta.
  rewrite <- first_error_is_Some, <- first_error_None. unfold result_of.
  destruct (first_error getsize paths) as [e|] eqn:Herr; cbn [fst snd].
  - split; [|split].
    + split; [by eexists | by eexists].
    + split; [done | by intros [? ?]].
    + intros e' [= <-]. split; [done|].
      apply first_error_Some in Herr as (pre & p & post & -> & _ & Hp & _).
      exists p. split; [|done]. set_solver.
  - split; [|split].
    + split; [by intros [? ?] | by intros [? ?]].
    + split; [by eexists | done].
    + done.
Qed.

Lemma run_raises_iff_inaccessible_witness :
  let ow := demo_run ["a.txt"; "locked"; "b.txt"] in
  (Exists (λ p, accessible (getsize_in demo_fs) p = false)
     ["a.txt"; "locked"; "b.txt"] ↔ ∃ e, ow.1 = Raise e) ∧
  (Forall (λ p, accessible (getsize_in demo_fs) p = true)
     ["a.txt"; "locked"; "b.txt"] ↔ ∃ r, ow.1 = Return r) ∧
  (∀ e, ow.1 = Raise e →
     result_of ow = Raise e ∧
     ∃ p, p ∈ ["a.txt"; "locked"; "b.txt"] ∧ getsize_in demo_fs p = inl e).
Proof.
  apply (run_raises_iff_inaccessible (getsize_in demo_fs) "total_file_size.py"
           demo_repr 4 7%positive ["a.txt"; "locked"; "b.txt"]
           (demo_world ["a.txt"; "locked"; "b.txt"])).
  - reflexivity.
  - simpl. lia.
Defined.

(** C3.  For the empty mini-batch [run] returns an empty list, and does not
    raise. *)
Theorem run_empty getsize __file__ repr_str fuel mini_batch w :
  heap w !! mini_batch = Some [] →
  0 < fuel →
  ∃ r w',
    run getsize __file__ repr_str fuel mini_batch w = (Return r, w') ∧
    heap w' !! r = Some [].
Proof.
  intros Hmb Hfuel.
  pose proof (run_spec getsize __file__ repr_str fuel mini_batch [] w Hmb Hfuel)
    as Hrun.
  cbn in Hrun. eexists _, _. split; [exact Hrun|].
  cbn. apply lookup_insert_eq.
Qed.

Lemma run_empty_witness :
  ∃ r w', demo_run [] = (Return r, w') ∧ heap w' !! r = Some [].
Proof.
  apply (run_empty (getsize_in demo_fs) "total_file_size.py" demo_repr
           1 7%positive (demo_world [])).
  - reflexivity.
  - lia.
Defined.

(** C4.  With [a.txt] a file of 5 bytes and [b.txt] a file of 10 bytes,
    [run] on the mini-batch [["a.txt", "b.txt"]] returns [[5, 10]]. *)
Theorem run_a_b getsize __file__ repr_str fuel mini_batch w :
  getsize "a.txt" = inr 5%Z →
  getsize "b.txt" = inr 10%Z →
  heap w !! mini_batch = Some [VStr "a.txt"; VStr "b.txt"] →
  2 < fuel →
  ∃ r w',
    run getsize __file__ repr_str fuel mini_batch w = (Return r, w') ∧
    heap w' !! r = Some [VInt 5; VInt 10].
Proof.
  intros Ha Hb Hmb Hfuel.
  pose proof (run_spec getsize __file__ repr_str fuel mini_batch
                ["a.txt"; "b.txt"] w Hmb Hfuel) as Hrun.
  cbn in Hrun. rewrite Ha, Hb in Hrun.
  eexists _, _. split; [exact Hrun|].
  cbn. apply lookup_insert_eq.
Qed.

Lemma run_a_b_witness :
  ∃ r w',
    demo_run ["a.txt"; "b.txt"] = (Return r, w') ∧
    heap w' !! r = Some [VInt 5; VInt 10].
Proof.
  apply (run_a_b (getsize_in demo_fs) "total_file_size.py" demo_repr
           3 7%positive (demo_world ["a.txt"; "b.txt"])).
  - reflexivity.
  - reflexivity.
  - reflexivity.
  - lia.
Defined.

(** C5.  [init] never raises: it returns after printing the one line
    ["Init"], and the heap is as it was.  Called [n] times in a row it
    returns [n] times, having printed [n] such lines and nothing else. *)
Theorem init_any_number_of_times (n : nat) w :
  init w = (Return tt, mkWorld (heap w) (events w ++ [EvPrint "Init"])) ∧
  call_times n init w
  = (Return tt, mkWorld (heap w) (events w ++ replicate n (EvPrint "Init"))).
Proof.
  split; [reflexivity|].
  revert w. induction n as [|n IH]; intros w.
  - cbn. rewrite app_nil_r. by destruct w.
  - cbn [call_times replicate].
    rewrite (bind_Return _ _ _ _ _ (print_eq "Init" w)), IH. cbn.
    by rewrite <- app_assoc.
Qed.

(** C6.  A call of [run] that returns has printed, after the start line, the
    number of paths of the mini-batch, and, after looking up every path in
    turn, the sum of the sizes in the list it returns. *)
Theorem run_prints_count_and_total getsize __file__ repr_str fuel mini_batch
    (paths : list string) w r w' :
  heap w !! mini_batch = Some (VStr <$> paths) →
  run getsize __file__ repr_str fuel mini_batch w = (Return r, w') →
  ∃ sizes : list Z,
    heap w' !! r = Some (VInt <$> sizes) ∧
    events w'
    = events w
      ++ [EvPrint (line_start __file__ repr_str paths);
          EvPrint ("total_file_count = " +:+ pretty (Z.of_nat (length paths)))]
      ++ (getsize_event getsize <$> paths)
      ++ [EvPrint ("total_file_size = " +:+ pretty (total sizes))].
Proof.
  intros Hmb Hrun.
  destruct (run_Return_inv _ _ _ _ _ _ _ _ _ Hmb Hrun) as (_ & Hsizes & Hev).
  by exists (sizes_of getsize paths).
Qed.

Lemma run_prints_count_and_total_witness :
  ∃ sizes : list Z,
    heap (demo_run ["a.txt"; "b.txt"]).2 !! 8%positive = Some (VInt <$> sizes) ∧
    events (demo_run ["a.txt"; "b.txt"]).2
    = [] ++ [EvPrint (line_start "total_file_size.py" demo_repr ["a.txt"; "b.txt"]);
             EvPrint ("total_file_count = " +:+ pretty 2%Z)]
         ++ (getsize_event (getsize_in demo_fs) <$> ["a.txt"; "b.txt"])
         ++ [EvPrint ("total_file_size = " +:+ pretty (total sizes))].
Proof.
  apply (run_prints_count_and_total (getsize_in demo_fs) "total_file_size.py"
           demo_repr 3 7%positive ["a.txt"; "b.txt"]
           (demo_world ["a.txt"; "b.txt"])).
  - reflexivity.
  - vm_compute. reflexivity.
Defined.

(** C7.  [run] does not write to its argument: whatever the mini-batch and
    however the call ends, every list that existed before the call,
    the mini-batch among them, has the items it had; the call leaves at
    most one new list behind, at an address that was free, and when it
    returns, that list, distinct from the mini-batch, is its result. *)
Theorem run_leaves_mini_batch getsize __file__ repr_str fuel mini_batch w o w' :
  run getsize __file__ repr_str fuel mini_batch w = (o, w') →
  heap w' !! mini_batch = heap w !! mini_batch ∧
  (∀ l, l ∈ dom (heap w) → heap w' !! l = heap w !! l) ∧
  dom (heap w') ⊆ dom (heap w) ∪ {[fresh (dom (heap w))]} ∧
  ∀ r, o = Return r →
    r = fresh (dom (heap w)) ∧ (r ∉ dom (heap w)) ∧ r ≠ mini_batch.
Proof.
  intros Hrun. pose proof (run_footprint _ _ _ _ _ _ _ _ Hrun) as Hframe.
  pose proof (is_fresh (dom (heap w))) as Hfresh.
  assert (Hmb : heap w' !! mini_batch = heap w !! mini_batch).
  { destruct (heap w !! mini_batch) eqn:Hmb.
    - rewrite <- Hmb. apply Hframe. intros ->.
      apply Hfresh, elem_of_dom. by eexists.
    - rewrite run_dangling in Hrun by done. by injection Hrun as <- <-. }
  split; [done|]. split; [|split].
  - intros l Hl. apply Hframe. by intros ->.
  - intros l Hl. destruct (decide (l = fresh (dom (heap w)))) as [->|Hne].
    + set_solver.
    + apply elem_of_dom in Hl. rewrite (Hframe l Hne) in Hl.
      apply elem_of_dom in Hl. set_solver.
  - intros r ->. apply run_Return_fresh in Hrun as [-> Hsome].
    split; [done|]. split; [done|]. intros Heq.
    apply Hfresh. rewrite Heq. by apply elem_of_dom.
Qed.

Lemma run_leaves_mini_batch_witness :
  let w := demo_world ["a.txt"; "locked"] in
  let w' := (demo_run ["a.txt"; "locked"]).2 in
  heap w' !! 7%positive = heap w !! 7%positive ∧
  (∀ l, l ∈ dom (heap w) → heap w' !! l = heap w !! l) ∧
  dom (heap w') ⊆ dom (heap w) ∪ {[fresh (dom (heap w))]} ∧
  ∀ r, (demo_run ["a.txt"; "locked"]).1 = Return r →
    r = fresh (dom (heap w)) ∧ (r ∉ dom (heap w)) ∧ r ≠ 7%positive.
Proof.
  apply (run_leaves_mini_batch (getsize_in demo_fs) "total_file_size.py"
           demo_repr 3 7%positive (demo_world ["a.txt"; "locked"])).
  vm_compute. reflexivity.
Defined.

(** C8.  On a filesystem where no file has a negative size, every integer
    in the list [run] returns is non-negative, and so is the total it
    prints last. *)
Theorem run_sizes_nonneg getsize __file__ repr_str fuel mini_batch
    (paths : list string) w r w' :
  (∀ p n, getsize p = inr n → (0 ≤ n)%Z) →
  heap w !! mini_batch = Some (VStr <$> paths) →
  run getsize __file__ repr_str fuel mini_batch w = (Return r, w') →
  ∃ sizes : list Z,
    heap w' !! r = Some (VInt <$> sizes) ∧
    Forall (λ n, (0 ≤ n)%Z) sizes ∧
    (0 ≤ total sizes)%Z ∧
    last (events w')
    = Some (EvPrint ("total_file_size = " +:+ pretty (total sizes))).
Proof.
  intros Hpos Hmb Hrun.
  destruct (run_Return_inv _ _ _ _ _ _ _ _ _ Hmb Hrun) as (_ & Hsizes & Hev).
  exists (sizes_of getsize paths).
  pose proof (sizes_of_nonneg getsize paths Hpos) as Hnn.
  split; [done|]. split; [done|]. split; [by apply total_nonneg|].
  rewrite Hev, !app_assoc. apply last_snoc.
Qed.

Lemma run_sizes_nonneg_witness :
  ∃ sizes : list Z,
    heap (demo_run ["a.txt"; "b.txt"]).2 !! 8%positive = Some (VInt <$> sizes) ∧
    Forall (λ n, (0 ≤ n)%Z) sizes ∧
    (0 ≤ total sizes)%Z ∧
    last (events (demo_run ["a.txt"; "b.txt"]).2)
    = Some (EvPrint ("total_file_size = " +:+ pretty (total sizes))).
Proof.
  apply (run_sizes_nonneg (getsize_in demo_fs) "total_file_size.py"
           demo_repr 3 7%positive ["a.txt"; "b.txt"]
           (demo_world ["a.txt"; "b.txt"])).
  - intros p n. unfold getsize_in.
    destruct (demo_fs !! p) as [[content|]|]; [|done..].
    intros [= <-]. lia.
  - reflexivity.
  - vm_compute. reflexivity.
Defined.

(** C9.  The list [run] returns, or the exception it raises, is a function
    of the paths of the mini-batch and of what [os.path.getsize] answers for
    them: two calls on mini-batches with the same paths, on filesystems that
    agree on these paths, end the same way, whatever the address of the
    mini-batch, the rest of the heap, the events so far, [__file__], [repr]
    and the fuel (enough of it) are; and each of the two calls either
    returns a list or raises. *)
Theorem run_deterministic getsize1 getsize2 file1 file2 repr1 repr2
    fuel1 fuel2 mini_batch1 mini_batch2 (paths : list string) w1 w2 :
  (∀ p, p ∈ paths → getsize1 p = getsize2 p) →
  heap w1 !! mini_batch1 = Some (VStr <$> paths) →
  heap w2 !! mini_batch2 = Some (VStr <$> paths) →
  length paths < fuel1 →
  length paths < fuel2 →
  result_of (run getsize1 file1 repr1 fuel1 mini_batch1 w1)
  = result_of (run getsize2 file2 repr2 fuel2 mini_batch2 w2) ∧
  ((∃ sizes : list Z,
      result_of (run getsize1 file1 repr1 fuel1 mini_batch1 w1)
      = Return (VInt <$> sizes)) ∨
   (∃ e, result_of (run getsize1 file1 repr1 fuel1 mini_batch1 w1) = Raise e)).
Proof.
  intros Hagree Hmb1 Hmb2 Hfuel1 Hfuel2.
  rewrite (run_spec getsize1 file1 repr1 _ _ _ _ Hmb1 Hfuel1).
  rewrite (run_spec getsize2 file2 repr2 _ _ _ _ Hmb2 Hfuel2).
  destruct (sizes_of_ext _ _ _ Hagree) as [<- <-].
  unfold result_of. cbv zeta.
  destruct (first_error getsize1 paths) as [e|]; cbn [fst snd heap].
  - split; [done|]. right. by exists e.
  - rewrite !lookup_insert_eq. split; [done|]. left. by eexists.
Qed.

Lemma run_deterministic_witness :
  result_of (demo_run ["a.txt"; "b.txt"])
  = result_of (run (getsize_in (delete "locked" demo_fs)) "other.py" id 9
                 2%positive
                 (mkWorld {[ 2%positive := [VStr "a.txt"; VStr "b.txt"];
                             3%positive := [VInt 1] ]}
                          [EvPrint "Init"])) ∧
  ((∃ sizes : list Z,
      result_of (demo_run ["a.txt"; "b.txt"]) = Return (VInt <$> sizes)) ∨
   (∃ e, result_of (demo_run ["a.txt"; "b.txt"]) = Raise e)).
Proof.
  apply (run_deterministic (getsize_in demo_fs)
           (getsize_in (delete "locked" demo_fs))
           "total_file_size.py" "other.py" demo_repr id 3 9
           7%positive 2%positive ["a.txt"; "b.txt"]
           (demo_world ["a.txt"; "b.txt"])).
  - intros p [->|[->|[]%elem_of_nil]%elem_of_cons]%elem_of_cons; reflexivity.
  - reflexivity.
  - reflexivity.
  - simpl. lia.
  - simpl. lia.
Defined.

(** C10.  [run] looks the paths up from left to right.  When it raises, the
    exception is the one [os.path.getsize] raised for the first path that
    cannot be stat-ed; the lookups made are those of the paths before it,
    in order and all answered, followed by the failed one; no later path is
    looked up and nothing is printed after the two opening lines. *)
Theorem run_fails_at_first_inaccessible getsize __file__ repr_str fuel
    mini_batch (paths : list string) w e w' :
  heap w !! mini_batch = Some (VStr <$> paths) →
  run getsize __file__ repr_str fuel mini_batch w = (Raise e, w') →
  ∃ pre p post,
    paths = pre ++ p :: post ∧
    Forall (λ q, accessible getsize q = true) pre ∧
    getsize p = inl e ∧
    events w'
    = events w
      ++ [EvPrint (line_start __file__ repr_str paths);
          EvPrint (line_count paths)]
      ++ (getsize_event getsize <$> pre)
      ++ [EvGetsize p (inl e)].
Proof.
  intros Hmb Hrun.
  destruct (run_Raise_inv _ _ _ _ _ _ _ _ _ Hmb Hrun) as [Herr Hev].
  apply first_error_Some in Herr as (pre & p & post & Hpaths & Hok & Hp & Hatt & _).
  exists pre, p, post. split; [done|]. split; [done|]. split; [done|].
  rewrite Hev, Hatt, fmap_app. cbn. unfold getsize_event at 2. by rewrite Hp.
Qed.

Lemma run_fails_at_first_inaccessible_witness :
  ∃ pre p post,
    ["a.txt"; "locked"; "missing"; "b.txt"] = pre ++ p :: post ∧
    Forall (λ q, accessible (getsize_in demo_fs) q = true) pre ∧
    getsize_in demo_fs p = inl (PermissionError "locked") ∧
    events (demo_run ["a.txt"; "locked"; "missing"; "b.txt"]).2
    = [] ++ [EvPrint (line_start "total_file_size.py" demo_repr
                        ["a.txt"; "locked"; "missing"; "b.txt"]);
             EvPrint (line_count ["a.txt"; "locked"; "missing"; "b.txt"])]
         ++ (getsize_event (getsize_in demo_fs) <$> pre)
         ++ [EvGetsize p (inl (PermissionError "locked"))].
Proof.
  apply (run_fails_at_first_inaccessible (getsize_in demo_fs)
           "total_file_size.py" demo_repr 5 7%positive
           ["a.txt"; "locked"; "missing"; "b.txt"]
           (demo_world ["a.txt"; "locked"; "missing"; "b.txt"])).
  - reflexivity.
  - vm_compute. reflexivity.
Defined.

(** ** The model at work *)

Example demo_run_a_b :
  result_of (demo_run ["a.txt"; "b.txt"]) = Return [VInt 5; VInt 10] ∧
  events (demo_run ["a.txt"; "b.txt"]).2
  = [EvPrint "run method start: total_file_size.py, run(['a.txt', 'b.txt'])";
     EvPrint "total_file_count = 2";
     EvGetsize "a.txt" (inr 5%Z);
     EvGetsize "b.txt" (inr 10%Z);
     EvPrint "total_file_size = 15"].
Proof. split; reflexivity. Qed.

Example demo_run_locked :
  result_of (demo_run ["a.txt"; "locked"; "b.txt"])
  = Raise (PermissionError "locked") ∧
  events (demo_run ["a.txt"; "locked"; "b.txt"]).2
  = [EvPrint "run method start: total_file_size.py, run(['a.txt', 'locked', 'b.txt'])";
     EvPrint "total_file_count = 3";
     EvGetsize "a.txt" (inr 5%Z);
     EvGetsize "locked" (inl (PermissionError "locked"))].
Proof. split; reflexivity. Qed.

Example demo_run_missing :
  result_of (demo_run ["missing"]) = Raise (FileNotFoundError "missing").
Proof. reflexivity. Qed.

Example demo_run_short_of_fuel :
  (run (getsize_in demo_fs) "total_file_size.py" demo_repr 2 7%positive
     (demo_world ["a.txt"; "b.txt"])).1 = OutOfFuel.
Proof. reflexivity. Qed.

Example demo_init_twice :
  call_times 2 init (mkWorld ∅ [])
  = (Return tt, mkWorld ∅ [EvPrint "Init"; EvPrint "Init"]).
Proof. reflexivity. Qed.

(** ** Splitting, repeating and retrying a mini-batch *)

Section Loop_app.

Variable getsize : string → exn + Z.

Lemma all_accessible_app xs ys :
  Forall (λ p, accessible getsize p = true) xs →
  sizes_of getsize (xs ++ ys) = sizes_of getsize xs ++ sizes_of getsize ys ∧
  first_error getsize (xs ++ ys) = first_error getsize ys ∧
  attempted getsize (xs ++ ys) = xs ++ attempted getsize ys.
Proof.
  induction 1 as [|p xs Hp _ (IH1 & IH2 & IH3)]; simpl; [done|].
  apply accessible_true in Hp as [n Hn]. by rewrite Hn, IH1, IH2, IH3.
Qed.

Lemma first_error_app_Some xs ys e :
  first_error getsize xs = Some e →
  first_error getsize (xs ++ ys) = Some e ∧
  attempted getsize (xs ++ ys) = attempted getsize xs ∧
  sizes_of getsize (xs ++ ys) = sizes_of getsize xs.
Proof.
  induction xs as [|p xs IH]; simpl; [done|].
  destruct (getsize p); [done|].
  intros (-> & -> & ->)%IH. done.
Qed.

Lemma attempted_take paths :
  ∃ k, attempted getsize paths = take k paths.
Proof.
  induction paths as [|p rest [k IH]]; simpl; [by exists 0|].
  destruct (getsize p).
  - by exists 1.
  - exists (S k). simpl. by rewrite IH.
Qed.

Lemma lookups_getsize_events paths :
  lookups (getsize_event getsize <$> paths) = paths.
Proof. induction paths as [|p rest IH]; simpl; [done|]. by f_equal. Qed.

End Loop_app.

Lemma total_app A B : total (A ++ B) = (total A + total B)%Z.
Proof. induction A as [|a A IH]; simpl; [done|]. rewrite IH. lia. Qed.

Lemma lookups_app evs1 evs2 : lookups (evs1 ++ evs2) = lookups evs1 ++ lookups evs2.
Proof.
  induction evs1 as [|[line|path answer] evs1 IH]; simpl; [done|done|].
  by rewrite IH.
Qed.

(** What a call on a list of paths adds to the events, whatever way it
    ends, once the fuel is enough. *)
Lemma run_events getsize __file__ repr_str fuel mini_batch paths w :
  heap w !! mini_batch = Some (VStr <$> paths) →
  length paths < fuel →
  ∃ closing,
    events (run getsize __file__ repr_str fuel mini_batch w).2
    = events w
      ++ [EvPrint (line_start __file__ repr_str paths);
          EvPrint (line_count paths)]
      ++ (getsize_event getsize <$> attempted getsize paths)
      ++ closing ∧
    lookups closing = [].
Proof.
  intros Hmb Hfuel. rewrite run_spec with (paths := paths) by done.
  cbv zeta. cbn [snd events]. eexists. split; [reflexivity|].
  by destruct (first_error getsize paths).
Qed.

(** X1.  Splitting a batch does not change the sizes.  When [run] returns
    the list [A] for the paths [xs] and the list [B] for the paths [ys],
    then for the mini-batch [xs ++ ys] it returns [A ++ B], and the total it
    prints last is the sum of the totals of [A] and [B]. *)
Theorem run_split getsize file_a file_b file_ab repr_a repr_b repr_ab
    fuel_a fuel_b fuel batch_a batch_b batch (xs ys : list string)
    wa wb w ra rb wa' wb' :
  heap wa !! batch_a = Some (VStr <$> xs) →
  run getsize file_a repr_a fuel_a batch_a wa = (Return ra, wa') →
  heap wb !! batch_b = Some (VStr <$> ys) →
  run getsize file_b repr_b fuel_b batch_b wb = (Return rb, wb') →
  heap w !! batch = Some (VStr <$> (xs ++ ys)) →
  length (xs ++ ys) < fuel →
  ∃ (A B : list Z) r w',
    heap wa' !! ra = Some (VInt <$> A) ∧
    heap wb' !! rb = Some (VInt <$> B) ∧
    run getsize file_ab repr_ab fuel batch w = (Return r, w') ∧
    heap w' !! r = Some (VInt <$> (A ++ B)) ∧
    last (events w')
    = Some (EvPrint ("total_file_size = " +:+ pretty (total A + total B)%Z)).
Proof.
  intros Ha Hruna Hb Hrunb Hab Hfuel.
  destruct (run_Return_inv _ _ _ _ _ _ _ _ _ Ha Hruna) as (Hoka & HA & _).
  destruct (run_Return_inv _ _ _ _ _ _ _ _ _ Hb Hrunb) as (Hokb & HB & _).
  exists (sizes_of getsize xs), (sizes_of getsize ys).
  pose proof (run_spec getsize file_ab repr_ab _ _ _ _ Hab Hfuel) as Hrun.
  cbv zeta in Hrun.
  destruct (all_accessible_app getsize xs ys Hoka) as (Hsz & Herr & _).
  rewrite Herr, (proj2 (first_error_None _ _) Hokb), Hsz in Hrun.
  eexists _, _. split; [done|]. split; [done|]. split; [exact Hrun|].
  cbn [heap events]. split; [by rewrite lookup_insert_eq|].
  rewrite !app_assoc, last_snoc. unfold line_total. by rewrite total_app.
Qed.

Lemma run_split_witness :
  ∃ (A B : list Z) r w',
    heap (demo_run ["b.txt"]).2 !! 8%positive = Some (VInt <$> A) ∧
    heap (demo_run ["a.txt"; "b.txt"]).2 !! 8%positive = Some (VInt <$> B) ∧
    demo_run ["b.txt"; "a.txt"; "b.txt"] = (Return r, w') ∧
    heap w' !! r = Some (VInt <$> (A ++ B)) ∧
    last (events w')
    = Some (EvPrint ("total_file_size = " +:+ pretty (total A + total B)%Z)).
Proof.
  apply (run_split (getsize_in demo_fs)
           "total_file_size.py" "total_file_size.py" "total_file_size.py"
           demo_repr demo_repr demo_repr 2 3 4
           7%positive 7%positive 7%positive ["b.txt"] ["a.txt"; "b.txt"]
           (demo_world ["b.txt"]) (demo_world ["a.txt"; "b.txt"])
           (demo_world ["b.txt"; "a.txt"; "b.txt"])).
  - reflexivity.
  - vm_compute. reflexivity.
  - reflexivity.
  - vm_compute. reflexivity.
  - reflexivity.
  - simpl. lia.
Defined.

(** X2.  What follows the first path that cannot be stat-ed does not
    matter.  When [run] raises [e] for the paths [xs], it raises [e] for any
    mini-batch [xs ++ ys] as well, after the same lookups with the same
    answers: no path of [ys] is looked up. *)
Theorem run_raise_extends getsize file_a file_ab repr_a repr_ab fuel_a fuel
    batch_a batch (xs ys : list string) wa w e wa' :
  heap wa !! batch_a = Some (VStr <$> xs) →
  run getsize file_a repr_a fuel_a batch_a wa = (Raise e, wa') →
  heap w !! batch = Some (VStr <$> (xs ++ ys)) →
  length (xs ++ ys) < fuel →
  ∃ w' looked,
    run getsize file_ab repr_ab fuel batch w = (Raise e, w') ∧
    events wa'
    = events wa
      ++ [EvPrint (line_start file_a repr_a xs); EvPrint (line_count xs)]
      ++ looked ∧
    events w'
    = events w
      ++ [EvPrint (line_start file_ab repr_ab (xs ++ ys));
          EvPrint (line_count (xs ++ ys))]
      ++ looked.
Proof.
  intros Ha Hruna Hab Hfuel.
  destruct (run_Raise_inv _ _ _ _ _ _ _ _ _ Ha Hruna) as (Herr & Hev).
  destruct (first_error_app_Some getsize xs ys e Herr) as (Herr' & Hatt & _).
  pose proof (run_spec getsize file_ab repr_ab _ _ _ _ Hab Hfuel) as Hrun.
  cbv zeta in Hrun. rewrite Herr', Hatt in Hrun.
  eexists _, (getsize_event getsize <$> attempted getsize xs).
  split; [exact Hrun|]. split; [done|].
  cbn [events]. by rewrite app_nil_r.
Qed.

Lemma run_raise_extends_witness :
  ∃ w' looked,
    demo_run ["a.txt"; "missing"; "b.txt"; "locked"]
    = (Raise (FileNotFoundError "missing"), w') ∧
    events (demo_run ["a.txt"; "missing"]).2
    = [] ++ [EvPrint (line_start "total_file_size.py" demo_repr
                        ["a.txt"; "missing"]);
             EvPrint (line_count ["a.txt"; "missing"])]
         ++ looked ∧
    events w'
    = [] ++ [EvPrint (line_start "total_file_size.py" demo_repr
                        (["a.txt"; "missing"] ++ ["b.txt"; "locked"]));
             EvPrint (line_count (["a.txt"; "missing"] ++ ["b.txt"; "locked"]))]
         ++ looked.
Proof.
  apply (run_raise_extends (getsize_in demo_fs)
           "total_file_size.py" "total_file_size.py" demo_repr demo_repr 3 5
           7%positive 7%positive ["a.txt"; "missing"] ["b.txt"; "locked"]
           (demo_world ["a.txt"; "missing"])
           (demo_world ["a.txt"; "missing"; "b.txt"; "locked"])).
  - reflexivity.
  - vm_compute. reflexivity.
  - reflexivity.
  - simpl. lia.
Defined.

(** The mini-batch is still there after a call, whatever way it ended. *)
Lemma run_keeps_mini_batch getsize __file__ repr_str fuel mini_batch items w o w' :
  heap w !! mini_batch = Some items →
  run getsize __file__ repr_str fuel mini_batch w = (o, w') →
  heap w' !! mini_batch = Some items.
Proof.
  intros Hmb Hrun. rewrite <- Hmb.
  apply (run_footprint _ _ _ _ _ _ _ _ Hrun).
  intros ->. apply (is_fresh (dom (heap w))), elem_of_dom. by eexists.
Qed.

(** X3.  Calls do not share their result.  After a call of [run] that
    returned, a second call on the same mini-batch returns a list at another
    address with the same items; the list the first call returned is as it
    was, and so is the mini-batch. *)
Theorem run_again getsize file1 file2 repr1 repr2 fuel1 fuel2 mini_batch
    (paths : list string) w r1 w1 :
  heap w !! mini_batch = Some (VStr <$> paths) →
  run getsize file1 repr1 fuel1 mini_batch w = (Return r1, w1) →
  length paths < fuel2 →
  ∃ r2 w2 (sizes : list Z),
    run getsize file2 repr2 fuel2 mini_batch w1 = (Return r2, w2) ∧
    r2 ≠ r1 ∧ r2 ≠ mini_batch ∧
    heap w1 !! r1 = Some (VInt <$> sizes) ∧
    heap w2 !! r1 = Some (VInt <$> sizes) ∧
    heap w2 !! r2 = Some (VInt <$> sizes) ∧
    heap w2 !! mini_batch = Some (VStr <$> paths).
Proof.
  intros Hmb Hrun1 Hfuel.
  destruct (run_Return_inv _ _ _ _ _ _ _ _ _ Hmb Hrun1) as (Hok & Hr1 & _).
  pose proof (run_keeps_mini_batch _ _ _ _ _ _ _ _ _ Hmb Hrun1) as Hmb1.
  pose proof (run_spec getsize file2 repr2 _ _ _ _ Hmb1 Hfuel) as Hrun2.
  cbv zeta in Hrun2. rewrite (proj2 (first_error_None _ _) Hok) in Hrun2.
  pose proof (is_fresh (dom (heap w1))) as Hfresh.
  assert (Hne1 : fresh (dom (heap w1)) ≠ r1).
  { intros Heq. apply Hfresh. rewrite Heq. apply elem_of_dom. by eexists. }
  assert (Hne2 : fresh (dom (heap w1)) ≠ mini_batch).
  { intros Heq. apply Hfresh. rewrite Heq. apply elem_of_dom. by eexists. }
  eexists _, _, (sizes_of getsize paths). split; [exact Hrun2|].
  cbn [heap]. rewrite lookup_insert_eq, !lookup_insert_ne by done. done.
Qed.

Lemma run_again_witness :
  ∃ r2 w2 (sizes : list Z),
    run (getsize_in demo_fs) "total_file_size.py" demo_repr 3 7%positive
      (demo_run ["a.txt"; "b.txt"]).2 = (Return r2, w2) ∧
    r2 ≠ 8%positive ∧ r2 ≠ 7%positive ∧
    heap (demo_run ["a.txt"; "b.txt"]).2 !! 8%positive = Some (VInt <$> sizes) ∧
    heap w2 !! 8%positive = Some (VInt <$> sizes) ∧
    heap w2 !! r2 = Some (VInt <$> sizes) ∧
    heap w2 !! 7%positive = Some (VStr <$> ["a.txt"; "b.txt"]).
Proof.
  apply (run_again (getsize_in demo_fs) "total_file_size.py"
           "total_file_size.py" demo_repr demo_repr 3 3 7%positive
           ["a.txt"; "b.txt"] (demo_world ["a.txt"; "b.txt"])).
  - reflexivity.
  - vm_compute. reflexivity.
  - simpl. lia.
Defined.

(** X4.  A mini-batch can be submitted again.  Whatever way a call of [run]
    ended, and whatever the filesystem was then, a later call on the same
    mini-batch, on a filesystem where every path can be stat-ed, returns
    the size of every path. *)
Theorem run_retry getsize1 getsize2 file1 file2 repr1 repr2 fuel1 fuel2
    mini_batch (paths : list string) w o w1 :
  heap w !! mini_batch = Some (VStr <$> paths) →
  run getsize1 file1 repr1 fuel1 mini_batch w = (o, w1) →
  Forall (λ p, accessible getsize2 p = true) paths →
  length paths < fuel2 →
  ∃ r w2 (sizes : list Z),
    run getsize2 file2 repr2 fuel2 mini_batch w1 = (Return r, w2) ∧
    heap w2 !! r = Some (VInt <$> sizes) ∧
    Forall2 (λ p n, getsize2 p = inr n) paths sizes.
Proof.
  intros Hmb Hrun1 Hok Hfuel.
  pose proof (run_keeps_mini_batch _ _ _ _ _ _ _ _ _ Hmb Hrun1) as Hmb1.
  pose proof (run_spec getsize2 file2 repr2 _ _ _ _ Hmb1 Hfuel) as Hrun2.
  cbv zeta in Hrun2. rewrite (proj2 (first_error_None _ _) Hok) in Hrun2.
  destruct (all_accessible _ _ Hok) as [_ Hsizes].
  eexists _, _, (sizes_of getsize2 paths). split; [exact Hrun2|].
  cbn [heap]. by rewrite lookup_insert_eq.
Qed.

Lemma run_retry_witness :
  ∃ r w2 (sizes : list Z),
    run (getsize_in demo_fs_unlocked) "total_file_size.py" demo_repr 4
      7%positive (demo_run ["a.txt"; "locked"; "b.txt"]).2 = (Return r, w2) ∧
    heap w2 !! r = Some (VInt <$> sizes) ∧
    Forall2 (λ p n, getsize_in demo_fs_unlocked p = inr n)
      ["a.txt"; "locked"; "b.txt"] sizes.
Proof.
  apply (run_retry (getsize_in demo_fs) (getsize_in demo_fs_unlocked)
           "total_file_size.py" "total_file_size.py" demo_repr demo_repr 4 4
           7%positive ["a.txt"; "locked"; "b.txt"]
           (demo_world ["a.txt"; "locked"; "b.txt"])
           (Raise (PermissionError "locked"))).
  - reflexivity.
  - vm_compute. reflexivity.
  - repeat constructor.
  - simpl. lia.
Defined.

(** X5.  [run] asks the filesystem about paths of its mini-batch only, one
    position after the other and each position once: what a call adds to
    the events comes after the events that were there, and the paths it
    looked up are the first [k] paths of the mini-batch, for some [k]; all
    of them when the call returns. *)
Theorem run_looks_up_a_prefix getsize __file__ repr_str fuel mini_batch
    (paths : list string) w :
  heap w !! mini_batch = Some (VStr <$> paths) →
  length paths < fuel →
  let ow := run getsize __file__ repr_str fuel mini_batch w in
  ∃ new k,
    events ow.2 = events w ++ new ∧
    lookups new = take k paths ∧
    (∀ r, ow.1 = Return r → lookups new = paths).
Proof.
  intros Hmb Hfuel ow. subst ow.
  destruct (run_events getsize __file__ repr_str _ _ _ _ Hmb Hfuel)
    as (closing & Hev & Hclosing).
  destruct (attempted_take getsize paths) as [k Hk].
  eexists _, k. split; [exact Hev|].
  assert (Hlook : lookups
            ([EvPrint (line_start __file__ repr_str paths);
              EvPrint (line_count paths)]
             ++ (getsize_event getsize <$> attempted getsize paths) ++ closing)
          = attempted getsize paths).
  { cbn [app lookups].
    by rewrite lookups_app, lookups_getsize_events, Hclosing, app_nil_r. }
  rewrite Hlook. split; [done|].
  intros r. rewrite run_spec with (paths := paths) by done. cbv zeta.
  destruct (first_error getsize paths) eqn:Herr; [done|]. intros _.
  by apply first_error_None, all_accessible in Herr as [-> _].
Qed.

Lemma run_looks_up_a_prefix_witness :
  let ow := demo_run ["a.txt"; "locked"; "b.txt"] in
  ∃ new k,
    events ow.2 = [] ++ new ∧
    lookups new = take k ["a.txt"; "locked"; "b.txt"] ∧
    (∀ r, ow.1 = Return r → lookups new = ["a.txt"; "locked"; "b.txt"]).
Proof.
  apply (run_looks_up_a_prefix (getsize_in demo_fs) "total_file_size.py"
           demo_repr 4 7%positive ["a.txt"; "locked"; "b.txt"]
           (demo_world ["a.txt"; "locked"; "b.txt"])).
  - reflexivity.
  - simpl. lia.
Defined.
